(** * OpenSn angle sets: the [AngleSet] base class of the sweep scheduler

    A shallow embedding of [src/angle_set.h] (namespace [opensn]) and of the
    advance protocol that its pure virtual interface declares.

    Conventions.
    - [size_t], [uint64_t] and [std::uint32_t] values are unsigned, so they are
      modelled in [N].  [size_t] is taken to be 64 bits wide (LP64); the only
      place where a width matters is the narrowing of a [size_t] direction
      index to [std::uint32_t], which is written out as [to_uint32].
    - [std::vector] is a [list], [std::map<uint64_t, _>] is a [gmap N _] and
      [std::set<AngleSet*>] is a [gset N] of object addresses.
    - [const] member functions are pure functions of the object; the others
      pass the object (and what they mutate) explicitly.
    - A call that can end in a thrown logic error returns an [Outcome]. *)

From Stdlib Require Import NArith List Bool Lia.
From stdpp Require Import gmap strings list.

Local Open Scope N_scope.

(** ** Machine integers *)

(** Width of [std::uint32_t]. *)
Definition uint32_modulus : N := 2 ^ 32.

(** Conversion of an unsigned integer to [std::uint32_t]: the value modulo
    [2^32], as C++ defines an unsigned narrowing conversion. *)
Definition to_uint32 (v : N) : N := v mod uint32_modulus.

(** The values a [std::uint32_t] can hold. *)
Definition is_uint32 (v : N) : Prop := v < uint32_modulus.

(** ** Shared pointers *)

(** A [std::shared_ptr<T>]: null, or pointing to an object.  The header only
    copies such pointers and dereferences one of them; nothing in it depends
    on the reference count. *)
Inductive shared_ptr (T : Type) : Type :=
| null_ptr
| ptr_to (object : T).

Arguments null_ptr {T}.
Arguments ptr_to {T} object.

(** ** Faults *)

(** Modelled from the spec: the [OpenSnLogicalError] macro is used by
    [GetCommunicator] but its definition (the framework's logging header) is not
    part of the sources; the spec describes it as signalling a fatal logic
    fault.  A call therefore either returns a value or ends in a logic error
    carrying the message, with nothing returned. *)
Inductive Outcome (A : Type) : Type :=
| Returned (a : A)
| LogicalError (message : string).

Arguments Returned {A} a.
Arguments LogicalError {A} message.

(** ** Permission and status values *)

(** Modelled from the spec: the [AngleSetStatus] enumeration is declared in
    [sweep.h], which is not part of the sources; these are the four values the
    spec's data model lists. *)
Inductive AngleSetStatus : Type :=
| ReceivingData
| ReadyToExecute
| Executed
| Finished.

(** ** The asynchronous communicator *)

(** Modelled from the spec: [AsynchronousCommunicator] is declared in
    [async_comm.h], which is not part of the sources.  The spec's external
    contract gives it a non-blocking poll of whether an expected receive has
    arrived and a number of send buffers in flight; that is the state kept
    here: the identifiers of the receives that have arrived and the number of
    this angle set's sends not yet confirmed complete. *)
Record AsynchronousCommunicator : Type := mkComm {
  arrived : gset N;
  sends_in_flight : nat
}.

(** ** The [AngleSet] class *)

Section AngleSetClass.

(** The collaborators named by the header and defined elsewhere. *)
Context {SPDS FLUDS SweepBoundary : Type}.

(** The data members of [AngleSet], in declaration order. *)
Record AngleSet : Type := mkAngleSet {
  id_ : N;                                (* const size_t *)
  num_groups_ : N;                        (* const size_t *)
  spds_ : SPDS;                           (* const SPDS& *)
  fluds_ : shared_ptr FLUDS;              (* std::shared_ptr<FLUDS> *)
  angles_ : list N;                       (* std::vector<std::uint32_t> *)
  boundaries_ : gmap N (shared_ptr SweepBoundary);
                                          (* std::map<uint64_t,
                                               std::shared_ptr<SweepBoundary>>& *)
  executed_ : bool                        (* bool executed_ = false *)
}.

(** [AngleSet::AngleSet]: the member initialisers copy their arguments;
    [angles_] is built from the iterator range over the [size_t] indices, so
    each index is converted to [std::uint32_t]; [executed_] takes its default
    member initialiser.  The body is empty. *)
Definition AngleSet_new (id num_groups : N) (spds : SPDS)
    (fluds : shared_ptr FLUDS) (angle_indices : list N)
    (boundaries : gmap N (shared_ptr SweepBoundary)) : AngleSet :=
  {| id_ := id;
     num_groups_ := num_groups;
     spds_ := spds;
     fluds_ := fluds;
     angles_ := map to_uint32 angle_indices;
     boundaries_ := boundaries;
     executed_ := false |}.

(** A constructor call as a whole: the member initialisers, then the empty
    body.  Nothing in it tests its arguments or raises. *)
Definition AngleSet_construct (id num_groups : N) (spds : SPDS)
    (fluds : shared_ptr FLUDS) (angle_indices : list N)
    (boundaries : gmap N (shared_ptr SweepBoundary)) : Outcome AngleSet :=
  Returned (AngleSet_new id num_groups spds fluds angle_indices boundaries).

Definition GetID (a : AngleSet) : N := id_ a.
Definition GetSPDS (a : AngleSet) : SPDS := spds_ a.

(** [GetFLUDS() { return *fluds_; }]: the object [fluds_] points to.  The
    constructor accepts a null pointer, and dereferencing it is undefined:
    there is then no result. *)
Definition GetFLUDS (a : AngleSet) : option FLUDS :=
  match fluds_ a with
  | ptr_to object => Some object
  | null_ptr => None
  end.

Definition GetAngleIndices (a : AngleSet) : list N := angles_ a.
Definition GetBoundaries (a : AngleSet) : gmap N (shared_ptr SweepBoundary) :=
  boundaries_ a.
Definition GetNumGroups (a : AngleSet) : N := num_groups_ a.

(** [angles_.size()]. *)
Definition GetNumAngles (a : AngleSet) : N := N.of_nat (length (angles_ a)).

(** Modelled from the spec: [HasAngleIndex] is declared in the header
    ([bool HasAngleIndex(std::uint32_t angle_index) const]) and defined in a
    translation unit that is not part of the sources.  The spec's membership
    test returns whether the given direction index belongs to this angle
    set's index list.  The parameter type is the header's: an argument is
    converted to [std::uint32_t] when the call is made. *)
Definition HasAngleIndex (a : AngleSet) (angle_index : N) : bool :=
  existsb (N.eqb (to_uint32 angle_index)) (angles_ a).

(** The base-class body of [UpdateSweepDependencies] is empty: neither the
    object nor the caller's set is touched. *)
Definition AngleSet_UpdateSweepDependencies (a : AngleSet)
    (dependent_angle_sets : gset N) : AngleSet * gset N :=
  (a, dependent_angle_sets).

(** The base-class body of [GetCommunicator] raises the logic error. *)
Definition AngleSet_GetCommunicator (a : AngleSet)
    : Outcome AsynchronousCommunicator :=
  LogicalError "Method not implemented".

(** A derived class, as far as the two virtual member functions with a
    base-class body are concerned: for each, either an overriding body or
    nothing, in which case the call is dispatched to [AngleSet]'s. *)
Record AngleSetVariant : Type := mkVariant {
  override_UpdateSweepDependencies :
    option (AngleSet -> gset N -> AngleSet * gset N);
  override_GetCommunicator :
    option (AngleSet -> Outcome AsynchronousCommunicator)
}.

(** Virtual call of [UpdateSweepDependencies]. *)
Definition UpdateSweepDependencies (v : AngleSetVariant) (a : AngleSet)
    (dependent_angle_sets : gset N) : AngleSet * gset N :=
  match override_UpdateSweepDependencies v with
  | Some body => body a dependent_angle_sets
  | None => AngleSet_UpdateSweepDependencies a dependent_angle_sets
  end.

(** Virtual call of [GetCommunicator]. *)
Definition GetCommunicator (v : AngleSetVariant) (a : AngleSet)
    : Outcome AsynchronousCommunicator :=
  match override_GetCommunicator v with
  | Some body => body a
  | None => AngleSet_GetCommunicator a
  end.

(** Modelled from the spec: the construction contract of section 6, which
    the header states nowhere in code: [num_groups > 0] and a non-empty,
    duplicate-free direction index list. *)
Definition construction_contract (num_groups : N) (angle_indices : list N)
    : bool :=
  (0 <? num_groups)
  && match angle_indices with [] => false | _ :: _ => true end
  && bool_decide (NoDup angle_indices).

End AngleSetClass.

Arguments AngleSet : clear implicits.
Arguments AngleSetVariant : clear implicits.

(** ** The advance protocol

    [AngleSetAdvance], [FlushSendBuffers] and [ResetSweepBuffers] are pure
    virtual in the header; their bodies belong to derived classes that are not
    part of the sources.  The protocol below is the one the spec prescribes for
    every variant (section 4.1), over the state it talks about. *)

Section AdvanceProtocol.

Context {SPDS FLUDS SweepBoundary : Type}.

(** Which permission values grant execution.  The header's note on
    [AngleSetAdvance] names the granting value [AngleSetStatus::EXECUTE];
    the enumeration itself is not part of the sources, so the protocol is
    stated for any reading of it. *)
Variable grants : AngleSetStatus -> bool.

(** Modelled from the spec: the state of a derived angle-set class (none is
    part of the sources), as far as the advance protocol reads and writes it:
    the angle set, the receives it requires (boundary data and upstream
    cross-partition flux), its downstream dependents, its communicator, and
    the invocation counter of the external kernel. *)
Record SweepState : Type := mkSweepState {
  angle_set : AngleSet SPDS FLUDS SweepBoundary;
  required : list N;
  downstream : list N;
  comm : AsynchronousCommunicator;
  kernel_calls : nat
}.

(** The state right after construction of the angle set [a]. *)
Definition initial_state (a : AngleSet SPDS FLUDS SweepBoundary)
    (req down : list N) (c : gset N) : SweepState :=
  {| angle_set := a; required := req; downstream := down;
     comm := {| arrived := c; sends_in_flight := 0 |};
     kernel_calls := 0 |}.

Definition set_executed (a : AngleSet SPDS FLUDS SweepBoundary) (b : bool)
    : AngleSet SPDS FLUDS SweepBoundary :=
  {| id_ := id_ a; num_groups_ := num_groups_ a; spds_ := spds_ a;
     fluds_ := fluds_ a; angles_ := angles_ a;
     boundaries_ := boundaries_ a; executed_ := b |}.

(** Modelled from the spec: the poll of the communicator in an advance call:
    has every receive this angle set requires arrived? *)
Definition receives_complete (s : SweepState) : bool :=
  forallb (fun r => bool_decide (r ∈ arrived (comm s))) (required s).

(** Modelled from the spec: has every send enqueued by this angle set
    completed? *)
Definition sends_complete (s : SweepState) : bool :=
  Nat.eqb (sends_in_flight (comm s)) 0.

(** Modelled from the spec: the status [Finished] of the data model: the
    kernel ran and all sends are confirmed complete. *)
Definition is_finished (s : SweepState) : bool :=
  executed_ (angle_set s) && sends_complete s.

(** Modelled from the spec: the executed transition of an advance call:
    invoke the kernel, set [executed_], enqueue one send per downstream
    dependent. *)
Definition execute (s : SweepState) : SweepState :=
  {| angle_set := set_executed (angle_set s) true;
     required := required s;
     downstream := downstream s;
     comm := {| arrived := arrived (comm s);
                sends_in_flight :=
                  (sends_in_flight (comm s) + length (downstream s))%nat |};
     kernel_calls := S (kernel_calls s) |}.

(** Modelled from the spec: [AngleSetAdvance(sweep_chunk, permission)], pure
    virtual in the header.  The cases are the spec's, in its order: already
    [Finished]; (the kernel already ran, sends still in flight: it must not
    run again); receives incomplete; complete but permission denied;
    complete and permission granted. *)
Definition AngleSetAdvance (s : SweepState) (permission : AngleSetStatus)
    : SweepState * AngleSetStatus :=
  if is_finished s then (s, Finished)
  else if executed_ (angle_set s) then (s, Executed)
  else if negb (receives_complete s) then (s, ReceivingData)
  else if negb (grants permission) then (s, ReadyToExecute)
  else (execute s, Executed).

(** The five cases of an advance call, as a relation between the state and
    permission before and the state and status after. *)
Inductive advance_case (s : SweepState) (p : AngleSetStatus)
  : SweepState -> AngleSetStatus -> Prop :=
| case_finished :
    is_finished s = true -> advance_case s p s Finished
| case_sending :
    executed_ (angle_set s) = true -> sends_complete s = false ->
    advance_case s p s Executed
| case_receiving :
    executed_ (angle_set s) = false -> receives_complete s = false ->
    advance_case s p s ReceivingData
| case_denied :
    executed_ (angle_set s) = false -> receives_complete s = true ->
    grants p = false -> advance_case s p s ReadyToExecute
| case_execute :
    executed_ (angle_set s) = false -> receives_complete s = true ->
    grants p = true -> advance_case s p (execute s) Executed.

(** Modelled from the spec: [FlushSendBuffers], pure virtual in the header.
    It waits until every send of this angle set has completed, and returns
    [Finished]. *)
Definition FlushSendBuffers (s : SweepState) : SweepState * AngleSetStatus :=
  ({| angle_set := angle_set s; required := required s;
      downstream := downstream s;
      comm := {| arrived := arrived (comm s); sends_in_flight := 0 |};
      kernel_calls := kernel_calls s |}, Finished).

(** Modelled from the spec: [ResetSweepBuffers], pure virtual in the header.
    It clears [executed_] and the bookkeeping of buffered sends. *)
Definition ResetSweepBuffers (s : SweepState) : SweepState :=
  {| angle_set := set_executed (angle_set s) false;
     required := required s; downstream := downstream s;
     comm := {| arrived := arrived (comm s); sends_in_flight := 0 |};
     kernel_calls := kernel_calls s |}.

(** Modelled from the spec: what the messaging transport does on its own
    between two calls: an expected message arrives, or one of the sends in
    flight completes. *)
Definition message_arrives (r : N) (s : SweepState) : SweepState :=
  {| angle_set := angle_set s; required := required s;
     downstream := downstream s;
     comm := {| arrived := {[ r ]} ∪ arrived (comm s);
                sends_in_flight := sends_in_flight (comm s) |};
     kernel_calls := kernel_calls s |}.

Definition send_completes (s : SweepState) : SweepState :=
  {| angle_set := angle_set s; required := required s;
     downstream := downstream s;
     comm := {| arrived := arrived (comm s);
                sends_in_flight := Nat.pred (sends_in_flight (comm s)) |};
     kernel_calls := kernel_calls s |}.

(** Modelled from the spec: blocking.  A call blocks when it waits for the
    transport, so that the state it returns holds progress the transport made
    during the call: a message that had not arrived when the call was made, or
    fewer sends in flight than there were.  A call that does not block
    returns with the transport as it found it, apart from what the call
    itself enqueued. *)
Definition waited_for_transport (before after : SweepState) : bool :=
  negb (bool_decide (arrived (comm after) ⊆ arrived (comm before)))
  || (sends_in_flight (comm after) <? sends_in_flight (comm before))%nat.

(** Modelled from the spec: what can happen to an angle set during a sweep:
    the calls the scheduler loop makes and the events of the transport. *)
Inductive Action : Type :=
| CallAdvance (permission : AngleSetStatus)
| CallFlush
| CallReset
| MessageArrives (r : N)
| SendCompletes.

Definition is_reset (act : Action) : bool :=
  match act with CallReset => true | _ => false end.

(** One action: the next state and, for an advance call, what it returned. *)
Definition step (s : SweepState) (act : Action)
    : SweepState * option AngleSetStatus :=
  match act with
  | CallAdvance permission =>
      let '(s', r) := AngleSetAdvance s permission in (s', Some r)
  | CallFlush => (fst (FlushSendBuffers s), None)
  | CallReset => (ResetSweepBuffers s, None)
  | MessageArrives r => (message_arrives r s, None)
  | SendCompletes => (send_completes s, None)
  end.

(** A sequence of actions: the final state and the statuses returned by the
    advance calls, in order. *)
Fixpoint run (s : SweepState) (acts : list Action)
    : SweepState * list AngleSetStatus :=
  match acts with
  | [] => (s, [])
  | act :: rest =>
      let '(s', r) := step s act in
      let '(s'', rs) := run s' rest in
      (s'', match r with Some x => x :: rs | None => rs end)
  end.

(** No reset among the actions: they all belong to one outer iteration. *)
Definition same_iteration (acts : list Action) : bool :=
  forallb (fun act => negb (is_reset act)) acts.


End AdvanceProtocol.

Arguments SweepState : clear implicits.

(** ** Concrete angle sets

    The scenario of the spec's testable properties (id 3, two groups,
    direction indices 5, 7 and 9, no dependencies) and inputs on which the
    narrowing of direction indices shows. *)

(** The reading of the permission values taken from the header's note: the
    value it names [EXECUTE] grants execution, every other value denies it. *)
Definition grants_execute (permission : AngleSetStatus) : bool :=
  match permission with
  | Executed => true
  | _ => false
  end.

(** No boundary registered. *)
Definition no_boundaries : gmap N (shared_ptr unit) := ∅.

Definition scenario_set : AngleSet unit unit unit :=
  AngleSet_new 3 2 tt (ptr_to tt) [5; 7; 9] no_boundaries.

(** All receives already satisfied, one downstream dependent. *)
Definition scenario_start : SweepState unit unit unit :=
  initial_state scenario_set [] [1] ∅.

(** The scenario after one permitted advance call: the kernel has run and
    one send is in flight. *)
Definition scenario_done : SweepState unit unit unit :=
  fst (AngleSetAdvance grants_execute scenario_start Executed).

(** The scenario after the subsequent flush: [Finished]. *)
Definition scenario_finished : SweepState unit unit unit :=
  fst (FlushSendBuffers scenario_done).

(** Calls and transport events of one outer iteration. *)
Definition scenario_actions : list Action :=
  [CallAdvance Executed; MessageArrives 2; CallAdvance ReceivingData;
   SendCompletes; CallAdvance Executed; CallFlush; CallAdvance Executed].



(** A [size_t] direction index that does not fit 32 bits. *)
Definition wide_index : N := 2 ^ 32 + 5.

Definition wide_set : AngleSet unit unit unit :=
  AngleSet_new 3 2 tt (ptr_to tt) [wide_index] no_boundaries.

(** A derived class that overrides neither virtual member function. *)
Definition local_variant : AngleSetVariant unit unit unit :=
  {| override_UpdateSweepDependencies := None;
     override_GetCommunicator := None |}.

(** * Properties *)

(** ** Narrowing *)

Lemma to_uint32_is_uint32 (v : N) : is_uint32 (to_uint32 v).
Proof. unfold is_uint32, to_uint32. apply N.mod_lt. discriminate. Qed.

Lemma to_uint32_small (v : N) : is_uint32 v -> to_uint32 v = v.
Proof. unfold is_uint32, to_uint32. intros Hv. now apply N.mod_small. Qed.

Lemma to_uint32_idempotent (v : N) : to_uint32 (to_uint32 v) = to_uint32 v.
Proof. apply to_uint32_small, to_uint32_is_uint32. Qed.

Lemma map_to_uint32_small (l : list N) :
  Forall is_uint32 l -> map to_uint32 l = l.
Proof.
  induction 1 as [|v l Hv _ IH]; simpl; [reflexivity|].
  now rewrite IH, (to_uint32_small v Hv).
Qed.

Section AngleSetFacts.

Context {SPDS FLUDS SweepBoundary : Type}.
Implicit Types (a : AngleSet SPDS FLUDS SweepBoundary) (l : list N).

Lemma HasAngleIndex_spec a v :
  HasAngleIndex a v = true <-> In (to_uint32 v) (GetAngleIndices a).
Proof.
  unfold HasAngleIndex, GetAngleIndices. rewrite existsb_exists. split.
  - intros (x & Hin & Heq). apply N.eqb_eq in Heq. now subst x.
  - intros Hin. exists (to_uint32 v). split; [assumption|apply N.eqb_refl].
Qed.

End AngleSetFacts.

(** ** Construction and the accessors *)

Section Construction.

Context {SPDS FLUDS SweepBoundary : Type}.
Variables (id num_groups : N) (spds : SPDS) (fluds : shared_ptr FLUDS)
          (boundaries : gmap N (shared_ptr SweepBoundary)).

Local Abbreviation new l :=
  (AngleSet_new id num_groups spds fluds l boundaries).

(** C8, as amended.  For every construction call, [GetID()] is the supplied
    id, [GetNumGroups()] the supplied number of groups, [GetAngleIndices()]
    lists the supplied direction indices, each narrowed to 32 bits, in their
    supplied order (so exactly the supplied indices when each of them is
    below [2^32]), [GetNumAngles()] is the length of the supplied list, and
    the executed flag is initially false. *)
Theorem construction_accessors (angle_indices : list N) :
  GetID (new angle_indices) = id
  /\ GetNumGroups (new angle_indices) = num_groups
  /\ GetAngleIndices (new angle_indices) = map to_uint32 angle_indices
  /\ (Forall is_uint32 angle_indices ->
      GetAngleIndices (new angle_indices) = angle_indices)
  /\ GetNumAngles (new angle_indices) = N.of_nat (length angle_indices)
  /\ executed_ (new angle_indices) = false.
Proof.
  repeat split.
  - intros Hsmall. now apply map_to_uint32_small.
  - unfold GetNumAngles. simpl. now rewrite length_map.
Qed.

(** C9.  Every supplied direction index [v] is stored as [v mod 2^32]; the
    membership test decides an index [v] by [v mod 2^32]; and two supplied
    indices that agree modulo [2^32] give the same angle set, so no accessor
    and no membership test tells them apart. *)
Theorem indices_narrowed_to_32_bits :
  (forall angle_indices,
      GetAngleIndices (new angle_indices)
      = map (fun v => v mod 2 ^ 32) angle_indices)
  /\ (forall (a : AngleSet SPDS FLUDS SweepBoundary) v,
      HasAngleIndex a v = HasAngleIndex a (v mod 2 ^ 32))
  /\ (forall before after v w,
      v mod 2 ^ 32 = w mod 2 ^ 32 ->
      new (before ++ v :: after) = new (before ++ w :: after)
      /\ forall q, HasAngleIndex (new (before ++ v :: after)) q
                   = HasAngleIndex (new (before ++ w :: after)) q).
Proof.
  split; [reflexivity|]. split.
  - intros a v. unfold HasAngleIndex.
    change (v mod 2 ^ 32) with (to_uint32 v).
    now rewrite to_uint32_idempotent.
  - intros before after v w Hvw.
    assert (Heq : new (before ++ v :: after) = new (before ++ w :: after)).
    { unfold AngleSet_new. f_equal. rewrite !map_app. simpl.
      unfold to_uint32 at 2 5. unfold uint32_modulus. now rewrite Hvw. }
    split; [exact Heq|]. intros q. now rewrite Heq.
Qed.

(** C5, as amended.  For an angle set constructed with the direction index
    list [angle_indices] and a 32-bit index [v], the membership test is true
    exactly when some supplied index narrows to [v]; when every supplied
    index is below [2^32] that is exactly when [v] is one of them, and then
    an index supplied only to another angle set is rejected.  The test is a
    function of the angle set and the index alone. *)
Theorem membership_of_constructed (angle_indices : list N) (v : N) :
  is_uint32 v ->
  (HasAngleIndex (new angle_indices) v = true
   <-> exists w, In w angle_indices /\ w mod 2 ^ 32 = v)
  /\ (Forall is_uint32 angle_indices ->
      (HasAngleIndex (new angle_indices) v = true <-> In v angle_indices)
      /\ forall others, In v others -> ~ In v angle_indices ->
           HasAngleIndex (new others) v = true
           /\ HasAngleIndex (new angle_indices) v = false).
Proof.
  intros Hv.
  assert (Hgen : forall l, HasAngleIndex (new l) v = true
                           <-> exists w, In w l /\ w mod 2 ^ 32 = v).
  { intros l. rewrite HasAngleIndex_spec, (to_uint32_small v Hv).
    unfold GetAngleIndices. simpl. rewrite in_map_iff.
    split; intros (w & H1 & H2); exists w; tauto. }
  split; [apply Hgen|]. intros Hsmall.
  assert (Hin : HasAngleIndex (new angle_indices) v = true
                <-> In v angle_indices).
  { rewrite Hgen. split.
    - intros (w & Hw & Heq).
      pose proof (proj1 (List.Forall_forall _ _) Hsmall w Hw) as Hw32.
      pose proof (to_uint32_small w Hw32) as Hw'.
      unfold to_uint32, uint32_modulus in Hw'. congruence.
    - intros Hin. exists v. split; [assumption|].
      apply (to_uint32_small v Hv). }
  split; [exact Hin|]. intros others Hothers Hnot. split.
  - apply Hgen. exists v. split; [assumption|apply (to_uint32_small v Hv)].
  - destruct (HasAngleIndex (new angle_indices) v) eqn:E; [|reflexivity].
    exfalso. apply Hnot. now apply Hin.
Qed.

(** C10.  A constructor call returns an angle set for every input, also
    when the construction contract is violated: zero groups, an empty index
    list and repeated indices are all accepted, and the indices are kept as
    supplied (narrowed), repetitions included. *)
Theorem construction_never_faults (angle_indices : list N) :
  (exists a,
      AngleSet_construct id num_groups spds fluds angle_indices boundaries
      = Returned a
      /\ GetNumGroups a = num_groups
      /\ GetAngleIndices a = map to_uint32 angle_indices
      /\ GetNumAngles a = N.of_nat (length angle_indices))
  /\ (forall v,
      construction_contract 0 [v] = false
      /\ construction_contract 1 [] = false
      /\ construction_contract 1 [v; v] = false
      /\ GetNumGroups (AngleSet_new id 0 spds fluds [v] boundaries) = 0
      /\ GetNumAngles (new []) = 0
      /\ GetAngleIndices (new [v; v]) = [to_uint32 v; to_uint32 v]
      /\ GetNumAngles (new [v; v]) = 2).
Proof.
  split.
  - eexists. split; [reflexivity|]. repeat split.
    unfold GetNumAngles. simpl. now rewrite length_map.
  - intros v. repeat split.
    unfold construction_contract. simpl.
    rewrite bool_decide_eq_false. intros Hnd.
    apply NoDup_cons in Hnd as [Hnotin _]. apply Hnotin. constructor.
Qed.

End Construction.

Lemma construction_accessors_witness :
  Forall is_uint32 [5; 7; 9]
  /\ GetAngleIndices scenario_set = [5; 7; 9]
  /\ GetNumAngles scenario_set = 3.
Proof.
  assert (Hsmall : Forall is_uint32 [5; 7; 9]).
  { repeat constructor; unfold is_uint32, uint32_modulus; lia. }
  destruct (construction_accessors 3 2 tt (ptr_to tt) no_boundaries [5; 7; 9])
    as (_ & _ & _ & Hsame & Hnum & _).
  split; [exact Hsmall|]. split; [exact (Hsame Hsmall)|exact Hnum].
Defined.

(** C8 as stated fails where a supplied index does not fit 32 bits: the
    stored list holds 5 where [2^32 + 5] was supplied. *)
Lemma construction_accessors_counterexample :
  ~ (GetID wide_set = 3
     /\ GetNumGroups wide_set = 2
     /\ GetAngleIndices wide_set = [wide_index]
     /\ GetNumAngles wide_set = 1
     /\ executed_ wide_set = false).
Proof. intros (_ & _ & Habs & _). vm_compute in Habs. discriminate Habs. Qed.

Lemma indices_narrowed_to_32_bits_witness :
  5 <> wide_index
  /\ AngleSet_new 3 2 tt (ptr_to tt) [5] no_boundaries = wide_set
  /\ HasAngleIndex wide_set 5 = HasAngleIndex wide_set wide_index.
Proof.
  split; [discriminate|].
  destruct (indices_narrowed_to_32_bits 3 2 tt (ptr_to tt) no_boundaries)
    as (_ & Hquery & Hsame).
  split.
  - apply (Hsame [] [] 5 wide_index). reflexivity.
  - symmetry. apply (Hquery wide_set wide_index).
Defined.

Lemma membership_of_constructed_witness :
  is_uint32 7
  /\ Forall is_uint32 [5; 7; 9]
  /\ (HasAngleIndex scenario_set 7 = true <-> In 7 [5; 7; 9]).
Proof.
  assert (H7 : is_uint32 7) by (unfold is_uint32, uint32_modulus; lia).
  assert (Hsmall : Forall is_uint32 [5; 7; 9]).
  { repeat constructor; unfold is_uint32, uint32_modulus; lia. }
  split; [exact H7|]. split; [exact Hsmall|].
  apply (membership_of_constructed 3 2 tt (ptr_to tt) no_boundaries [5; 7; 9] 7 H7).
  exact Hsmall.
Defined.

(** C5 as stated fails where a supplied index does not fit 32 bits: the angle
    set built from [2^32 + 5] alone accepts 5, which was not supplied. *)
Lemma membership_of_constructed_counterexample :
  ~ (HasAngleIndex wide_set 5 = true <-> In 5 [wide_index]).
Proof.
  intros [Hin _]. specialize (Hin eq_refl).
  destruct Hin as [Heq|[]]. vm_compute in Heq. discriminate Heq.
Qed.

(** ** The virtual member functions with a base-class body *)

Section BaseClassBodies.

Context {SPDS FLUDS SweepBoundary : Type}.
Implicit Types (v : AngleSetVariant SPDS FLUDS SweepBoundary)
               (a : AngleSet SPDS FLUDS SweepBoundary).

(** C6.  For an angle set whose class does not override the dependency
    query, [UpdateSweepDependencies] adds nothing: the caller's set comes
    back as it was, and so does the angle set. *)
Theorem default_dependencies_unchanged v a (dependent_angle_sets : gset N) :
  override_UpdateSweepDependencies v = None ->
  UpdateSweepDependencies v a dependent_angle_sets
  = (a, dependent_angle_sets).
Proof.
  intros Hdefault. unfold UpdateSweepDependencies. now rewrite Hdefault.
Qed.

(** C7.  For an angle-set variant without a communicator, one that leaves
    [GetCommunicator] to the base class, every call raises the logic error
    and no call returns a communicator. *)
Theorem no_communicator_is_a_logic_fault v a :
  override_GetCommunicator v = None ->
  GetCommunicator v a = LogicalError "Method not implemented"
  /\ forall c, GetCommunicator v a <> Returned c.
Proof.
  intros Hdefault. unfold GetCommunicator. rewrite Hdefault.
  split; [reflexivity|]. intros c. discriminate.
Qed.

End BaseClassBodies.

Lemma default_dependencies_unchanged_witness :
  UpdateSweepDependencies local_variant scenario_set {[ 1; 2 ]}
  = (scenario_set, {[ 1; 2 ]}).
Proof. apply (default_dependencies_unchanged local_variant). reflexivity. Defined.

Lemma no_communicator_is_a_logic_fault_witness :
  GetCommunicator local_variant scenario_set
  = LogicalError "Method not implemented".
Proof.
  apply (no_communicator_is_a_logic_fault local_variant scenario_set).
  reflexivity.
Defined.

(** ** The advance protocol *)

Section ProtocolFacts.

Context {SPDS FLUDS SweepBoundary : Type}.
Variable grants : AngleSetStatus -> bool.
Implicit Types (s : SweepState SPDS FLUDS SweepBoundary)
               (p r : AngleSetStatus) (acts : list Action).

Lemma advance_cases s p :
  advance_case grants s p (fst (AngleSetAdvance grants s p))
                          (snd (AngleSetAdvance grants s p)).
Proof.
  unfold AngleSetAdvance, is_finished.
  destruct (executed_ (angle_set s)) eqn:Hex; simpl.
  - destruct (sends_complete s) eqn:Hsend; simpl.
    + apply case_finished. unfold is_finished. now rewrite Hex, Hsend.
    + now apply case_sending.
  - destruct (receives_complete s) eqn:Hrecv; simpl.
    + destruct (grants p) eqn:Hp; simpl.
      * now apply case_execute.
      * now apply case_denied.
    + now apply case_receiving.
Qed.

Lemma advance_returns_Executed s p s' :
  AngleSetAdvance grants s p = (s', Executed) ->
  executed_ (angle_set s') = true.
Proof.
  intros Hcall. pose proof (advance_cases s p) as Hcase.
  rewrite Hcall in Hcase. simpl in Hcase.
  inversion Hcase; subst; simpl; congruence.
Qed.

(** Once [executed_] is set, an action other than a reset leaves it set,
    does not invoke the kernel, and an advance call returns [Executed] or
    [Finished]. *)
Lemma step_after_executed s act :
  executed_ (angle_set s) = true -> is_reset act = false ->
  executed_ (angle_set (fst (step grants s act))) = true
  /\ kernel_calls (fst (step grants s act)) = kernel_calls s
  /\ forall r, snd (step grants s act) = Some r ->
               r = Executed \/ r = Finished.
Proof.
  intros Hex Hact. destruct act as [p| | |m|]; simpl in *;
    try discriminate; try (repeat split; [assumption|discriminate]).
  pose proof (advance_cases s p) as Hcase.
  destruct (AngleSetAdvance grants s p) as [s' r']. simpl in *.
  inversion Hcase; subst; try congruence;
    (repeat split; [assumption|]; intros r [= <-]; auto).
Qed.

Lemma run_cons s act acts :
  run grants s (act :: acts)
  = (fst (run grants (fst (step grants s act)) acts),
     match snd (step grants s act) with
     | Some x => x :: snd (run grants (fst (step grants s act)) acts)
     | None => snd (run grants (fst (step grants s act)) acts)
     end).
Proof.
  simpl. destruct (step grants s act) as [s' r]. simpl.
  now destruct (run grants s' acts).
Qed.

Lemma run_after_executed acts : forall s,
  executed_ (angle_set s) = true -> same_iteration acts = true ->
  kernel_calls (fst (run grants s acts)) = kernel_calls s
  /\ Forall (fun r => r = Executed \/ r = Finished)
            (snd (run grants s acts)).
Proof.
  induction acts as [|act acts IH]; intros s Hex Hsame.
  - simpl. split; [reflexivity|constructor].
  - simpl in Hsame. apply andb_true_iff in Hsame as [Hact Hrest].
    apply negb_true_iff in Hact.
    destruct (step_after_executed s act Hex Hact) as (Hex' & Hk & Hres).
    destruct (IH _ Hex' Hrest) as [IHk IHres].
    rewrite run_cons. simpl. split; [congruence|].
    destruct (snd (step grants s act)) as [x|]; [|assumption].
    constructor; [now apply Hres|assumption].
Qed.

(** An action other than a reset either leaves the kernel alone or is the
    one that invokes it, and then [executed_] is set. *)
Lemma step_kernel_calls s act :
  is_reset act = false ->
  kernel_calls (fst (step grants s act)) = kernel_calls s
  \/ (kernel_calls (fst (step grants s act)) = S (kernel_calls s)
      /\ executed_ (angle_set (fst (step grants s act))) = true).
Proof.
  intros Hact. destruct act as [p| | |m|]; simpl in *;
    try discriminate; try (left; reflexivity).
  pose proof (advance_cases s p) as Hcase.
  destruct (AngleSetAdvance grants s p) as [s' r']. simpl in *.
  inversion Hcase; subst; try (left; reflexivity).
  right. split; reflexivity.
Qed.

Lemma run_kernel_at_most_once acts : forall s,
  same_iteration acts = true ->
  (kernel_calls (fst (run grants s acts)) <= S (kernel_calls s))%nat.
Proof.
  induction acts as [|act acts IH]; intros s Hsame.
  - simpl. lia.
  - simpl in Hsame. apply andb_true_iff in Hsame as [Hact Hrest].
    apply negb_true_iff in Hact. rewrite run_cons. simpl.
    destruct (step_kernel_calls s act Hact) as [Hk|[Hk Hex]].
    + rewrite <- Hk. now apply IH.
    + destruct (run_after_executed acts _ Hex Hrest) as [Hsame' _]. lia.
Qed.

End ProtocolFacts.

Section ProtocolClaims.

Context {SPDS FLUDS SweepBoundary : Type}.
Variable grants : AngleSetStatus -> bool.
Implicit Types (s : SweepState SPDS FLUDS SweepBoundary)
               (p r : AngleSetStatus) (acts : list Action).



(** C1.  Within one outer iteration (any calls of advance and flush and any
    transport events, but no reset) the kernel is invoked at most once; and
    after an advance call has returned [Executed], the kernel is not invoked
    again and every further advance call returns [Executed] or
    [Finished]. *)
Theorem kernel_invoked_at_most_once s acts :
  same_iteration acts = true ->
  (kernel_calls (fst (run grants s acts)) <= S (kernel_calls s))%nat
  /\ forall s0 p,
       AngleSetAdvance grants s0 p = (s, Executed) ->
       kernel_calls (fst (run grants s acts)) = kernel_calls s
       /\ Forall (fun r => r = Executed \/ r = Finished)
                 (snd (run grants s acts)).
Proof.
  intros Hsame. split.
  - now apply run_kernel_at_most_once.
  - intros s0 p Hcall. apply run_after_executed; [|assumption].
    exact (advance_returns_Executed grants s0 p s Hcall).
Qed.


(** C3.  For an angle set that is already [Finished], an advance call
    returns [Finished] and changes nothing, and so does any number of
    further advance calls. *)
Theorem finished_is_idempotent s :
  is_finished s = true ->
  (forall p, AngleSetAdvance grants s p = (s, Finished))
  /\ forall ps, run grants s (map CallAdvance ps)
                = (s, map (fun _ => Finished) ps).
Proof.
  intros Hfin.
  assert (Hone : forall p, AngleSetAdvance grants s p = (s, Finished)).
  { intros p. unfold AngleSetAdvance. now rewrite Hfin. }
  split; [exact Hone|]. intros ps.
  induction ps as [|p ps IH]; [reflexivity|].
  simpl. rewrite Hone. simpl in IH. now rewrite IH.
Qed.

(** The flush, by contrast, blocks: with a send in flight it returns only
    once the transport has completed it. *)
Lemma flush_waits_for_sends s :
  sends_in_flight (comm s) <> 0%nat ->
  waited_for_transport s (fst (FlushSendBuffers s)) = true.
Proof.
  intros Hsends. unfold waited_for_transport. simpl.
  apply orb_true_iff. right. apply Nat.ltb_lt. lia.
Qed.


End ProtocolClaims.

Lemma kernel_invoked_at_most_once_witness :
  AngleSetAdvance grants_execute scenario_start Executed
  = (scenario_done, Executed)
  /\ kernel_calls (fst (run grants_execute scenario_done scenario_actions))
     = kernel_calls scenario_done
  /\ Forall (fun r => r = Executed \/ r = Finished)
            (snd (run grants_execute scenario_done scenario_actions)).
Proof.
  split; [reflexivity|].
  apply (proj2 (kernel_invoked_at_most_once grants_execute scenario_done
                  scenario_actions eq_refl) scenario_start Executed).
  reflexivity.
Defined.


Lemma finished_is_idempotent_witness :
  is_finished scenario_finished = true
  /\ AngleSetAdvance grants_execute scenario_finished Executed
     = (scenario_finished, Finished).
Proof.
  split; [reflexivity|].
  apply (finished_is_idempotent grants_execute scenario_finished eq_refl).
Defined.


(** ** More on construction: what the narrowing keeps and what it loses *)

Lemma map_to_uint32_is_uint32 (l : list N) :
  Forall is_uint32 (map to_uint32 l).
Proof.
  induction l as [|v l IH]; simpl; constructor;
    [apply to_uint32_is_uint32|exact IH].
Qed.

Lemma map_to_uint32_fixed (l : list N) :
  map to_uint32 l = l -> Forall is_uint32 l.
Proof. intros Hfix. rewrite <- Hfix. apply map_to_uint32_is_uint32. Qed.

Lemma to_uint32_testbit (v n : N) :
  N.testbit (to_uint32 v) n = (n <? 32) && N.testbit v n.
Proof.
  unfold to_uint32, uint32_modulus. destruct (n <? 32) eqn:Hn; simpl.
  - apply N.ltb_lt in Hn. now apply N.mod_pow2_bits_low.
  - apply N.ltb_ge in Hn. now apply N.mod_pow2_bits_high.
Qed.

Section ConstructionFacts.

Context {SPDS FLUDS SweepBoundary : Type}.
Implicit Types (a : AngleSet SPDS FLUDS SweepBoundary)
               (spds : SPDS) (fluds : shared_ptr FLUDS)
               (boundaries : gmap N (shared_ptr SweepBoundary)).

(** X1.  Whatever direction indices are supplied, every index the constructed
    angle set lists is below [2^32]. *)
Theorem stored_indices_fit_32_bits id num_groups spds fluds
    (angle_indices : list N) boundaries :
  Forall (fun x => x < 2 ^ 32)
    (GetAngleIndices
       (AngleSet_new id num_groups spds fluds angle_indices boundaries)).
Proof. apply map_to_uint32_is_uint32. Qed.

(** X4.  On index lists that fit 32 bits construction loses nothing: two
    different lists give two different angle sets. *)
Theorem distinct_lists_distinct_angle_sets id num_groups spds fluds
    (angle_indices angle_indices' : list N) boundaries :
  Forall is_uint32 angle_indices ->
  Forall is_uint32 angle_indices' ->
  angle_indices <> angle_indices' ->
  AngleSet_new id num_groups spds fluds angle_indices boundaries
  <> AngleSet_new id num_groups spds fluds angle_indices' boundaries.
Proof.
  intros Hsmall Hsmall' Hdiff Heq. apply Hdiff.
  apply (f_equal angles_) in Heq. simpl in Heq.
  now rewrite (map_to_uint32_small _ Hsmall),
              (map_to_uint32_small _ Hsmall') in Heq.
Qed.

(** X5.  Narrowing never removes a repetition and may create one: if the
    stored list is duplicate-free then so was the supplied list; a supplied
    duplicate-free list whose indices fit 32 bits is stored duplicate-free;
    and some duplicate-free supplied list is stored with a repetition. *)
Theorem duplicates_under_narrowing id num_groups spds fluds boundaries :
  (forall angle_indices,
      NoDup (GetAngleIndices
               (AngleSet_new id num_groups spds fluds angle_indices boundaries))
      -> NoDup angle_indices)
  /\ (forall angle_indices,
      Forall is_uint32 angle_indices -> NoDup angle_indices ->
      NoDup (GetAngleIndices
               (AngleSet_new id num_groups spds fluds angle_indices boundaries)))
  /\ (exists angle_indices,
      NoDup angle_indices
      /\ ~ NoDup (GetAngleIndices
                    (AngleSet_new id num_groups spds fluds angle_indices
                       boundaries))).
Proof.
  split; [|split].
  - intros l Hnd. unfold GetAngleIndices in Hnd. simpl in Hnd.
    apply NoDup_ListNoDup. apply NoDup_ListNoDup in Hnd.
    exact (List.NoDup_map_inv to_uint32 l Hnd).
  - intros l Hsmall Hnd. unfold GetAngleIndices. simpl.
    now rewrite (map_to_uint32_small l Hsmall).
  - exists [5; wide_index]. split.
    + apply NoDup_cons. split; [|apply NoDup_singleton].
      intros Hin. apply list_elem_of_singleton in Hin. discriminate Hin.
    + unfold GetAngleIndices. simpl. intros Hnd.
      apply NoDup_cons in Hnd as [Hnotin _]. apply Hnotin.
      vm_compute. constructor.
Qed.

(** X6.  The listed indices are the supplied ones, unchanged, exactly when
    every supplied index is below [2^32]. *)
Theorem stored_equals_supplied_iff id num_groups spds fluds
    (angle_indices : list N) boundaries :
  GetAngleIndices
    (AngleSet_new id num_groups spds fluds angle_indices boundaries)
  = angle_indices
  <-> Forall (fun v => v < 2 ^ 32) angle_indices.
Proof.
  unfold GetAngleIndices. simpl. split.
  - apply map_to_uint32_fixed.
  - apply map_to_uint32_small.
Qed.

(** X7.  Position by position, the listed index keeps the low 32 bits of the
    supplied one and has no higher bit set. *)
Theorem stored_index_keeps_low_bits id num_groups spds fluds
    (angle_indices : list N) boundaries (i : nat) (v : N) :
  nth_error angle_indices i = Some v ->
  exists x,
    nth_error
      (GetAngleIndices
         (AngleSet_new id num_groups spds fluds angle_indices boundaries)) i
    = Some x
    /\ forall n, N.testbit x n = (n <? 32) && N.testbit v n.
Proof.
  intros Hnth. exists (to_uint32 v). split.
  - unfold GetAngleIndices. simpl. now apply List.map_nth_error.
  - apply to_uint32_testbit.
Qed.

End ConstructionFacts.

Lemma distinct_lists_distinct_angle_sets_witness :
  Forall is_uint32 [5; 7; 9]
  /\ Forall is_uint32 [5; 7]
  /\ scenario_set <> AngleSet_new 3 2 tt (ptr_to tt) [5; 7] no_boundaries.
Proof.
  assert (Hsmall : Forall is_uint32 [5; 7; 9]).
  { repeat constructor; unfold is_uint32, uint32_modulus; lia. }
  assert (Hsmall' : Forall is_uint32 [5; 7]).
  { repeat constructor; unfold is_uint32, uint32_modulus; lia. }
  split; [exact Hsmall|]. split; [exact Hsmall'|].
  apply (distinct_lists_distinct_angle_sets 3 2 tt (ptr_to tt) [5; 7; 9] [5; 7]
           no_boundaries Hsmall Hsmall').
  discriminate.
Defined.

Lemma duplicates_under_narrowing_witness :
  Forall is_uint32 [5; 7; 9]
  /\ NoDup [5; 7; 9]
  /\ NoDup (GetAngleIndices scenario_set).
Proof.
  assert (Hsmall : Forall is_uint32 [5; 7; 9]).
  { repeat constructor; unfold is_uint32, uint32_modulus; lia. }
  assert (Hnd : NoDup [5; 7; 9]).
  { apply (bool_decide_unpack _). vm_compute. exact I. }
  split; [exact Hsmall|]. split; [exact Hnd|].
  destruct (duplicates_under_narrowing 3 2 tt (ptr_to tt) no_boundaries)
    as (_ & Hkeep & _).
  exact (Hkeep [5; 7; 9] Hsmall Hnd).
Defined.

Lemma stored_index_keeps_low_bits_witness :
  nth_error [wide_index] 0 = Some wide_index
  /\ exists x,
       nth_error (GetAngleIndices wide_set) 0 = Some x
       /\ forall n, N.testbit x n = (n <? 32) && N.testbit wide_index n.
Proof.
  split; [reflexivity|].
  apply (stored_index_keeps_low_bits 3 2 tt (ptr_to tt) [wide_index]
           no_boundaries 0%nat wide_index).
  reflexivity.
Defined.

(** ** The default dependency query over a whole sweep *)

Section DependencyCollection.

Context {SPDS FLUDS SweepBoundary : Type}.

(** X8.  Collecting the dependencies of any number of angle sets of a class
    that does not override the dependency query, one call after the other on
    the same set, leaves the set as it was at the start. *)
Theorem default_dependencies_collect_nothing
    (v : AngleSetVariant SPDS FLUDS SweepBoundary)
    (angle_sets : list (AngleSet SPDS FLUDS SweepBoundary))
    (dependent_angle_sets : gset N) :
  override_UpdateSweepDependencies v = None ->
  fold_left (fun collected a => snd (UpdateSweepDependencies v a collected))
    angle_sets dependent_angle_sets
  = dependent_angle_sets.
Proof.
  intros Hdefault. revert dependent_angle_sets.
  induction angle_sets as [|a rest IH]; intros collected; [reflexivity|].
  simpl. unfold UpdateSweepDependencies at 2. rewrite Hdefault. simpl.
  apply IH.
Qed.

End DependencyCollection.

Lemma default_dependencies_collect_nothing_witness :
  fold_left
    (fun collected a => snd (UpdateSweepDependencies local_variant a collected))
    [scenario_set; wide_set] ({[ 3 ]} : gset N)
  = {[ 3 ]}.
Proof.
  apply (default_dependencies_collect_nothing local_variant
           [scenario_set; wide_set] {[ 3 ]}).
  reflexivity.
Defined.
